(** * HTTP header formatter: [formatHeaders] of [script.js]

    A shallow embedding of the header-formatting transform of the page
    script, and the properties its specification states about it.

    JavaScript strings are sequences of UTF-16 code units; they are modelled
    as lists of code units ([N]).  The built-ins the script calls
    ([String.prototype.trim], [String.prototype.split] with a one-unit
    separator, [Array.prototype.filter] with [Boolean], indexing past the
    end of an array, optional chaining, template literals) follow
    ECMAScript.  A method call on [undefined] raises [TypeError]; the
    embedding keeps that possibility in the [completion] type. *)

From Stdlib Require Import String Ascii List NArith Arith Lia Bool.
From Equations Require Import Equations.
Import ListNotations.

(** ** The fragment of ECMAScript the script uses *)

Module JS.

Definition code_unit := N.
Definition jsstring := list code_unit.

(** String literals of the script, written as Rocq strings. *)
Definition str (s : string) : jsstring :=
  map N_of_ascii (list_ascii_of_string s).

(** U+000A, the "\n" of the script. *)
Definition LF : code_unit := 10%N.

(** ECMAScript WhiteSpace: TAB, VT, FF, ZWNBSP and the Unicode
    space separators (category Zs). *)
Definition is_white_space (c : code_unit) : bool :=
  ((c =? 0x9) || (c =? 0xB) || (c =? 0xC) || (c =? 0xFEFF)
   || (c =? 0x20) || (c =? 0xA0) || (c =? 0x1680)
   || ((0x2000 <=? c) && (c <=? 0x200A))
   || (c =? 0x202F) || (c =? 0x205F) || (c =? 0x3000))%N.

(** ECMAScript LineTerminator: LF, CR, LS, PS. *)
Definition is_line_terminator (c : code_unit) : bool :=
  ((c =? 0xA) || (c =? 0xD) || (c =? 0x2028) || (c =? 0x2029))%N.

(** What [trim] strips: WhiteSpace and LineTerminator. *)
Definition is_ws (c : code_unit) : bool :=
  is_white_space c || is_line_terminator c.

Fixpoint trimStart (s : jsstring) : jsstring :=
  match s with
  | [] => []
  | c :: t => if is_ws c then trimStart t else s
  end.

Fixpoint trimEnd (s : jsstring) : jsstring :=
  match s with
  | [] => []
  | c :: t =>
      match trimEnd t with
      | [] => if is_ws c then [] else [c]
      | t' => c :: t'
      end
  end.

(** [String.prototype.trim]. *)
Definition trim (s : jsstring) : jsstring := trimEnd (trimStart s).

(** [s.split(sep)] for a separator of one code unit: the pieces between
    the occurrences of [sep]; never the empty array. *)
Fixpoint split (sep : code_unit) (s : jsstring) : list jsstring :=
  match s with
  | [] => [[]]
  | c :: t =>
      if (c =? sep)%N then [] :: split sep t
      else match split sep t with
           | [] => [[c]]
           | l :: ls => (c :: l) :: ls
           end
  end.

(** The values the loop handles: an array element is a string, an index
    past the end reads [undefined]. *)
Inductive value : Type :=
| Undefined
| Str (s : jsstring).

Inductive error : Type :=
| TypeError.

Inductive completion (A : Type) : Type :=
| Normal (a : A)
| Throw (e : error).
Arguments Normal {A} a.
Arguments Throw {A} e.

Definition bind {A B : Type} (m : completion A) (k : A -> completion B)
  : completion B :=
  match m with
  | Normal a => k a
  | Throw e => Throw e
  end.

(** [ToBoolean]: [undefined] and the empty string are falsy. *)
Definition ToBoolean (v : value) : bool :=
  match v with
  | Undefined => false
  | Str [] => false
  | Str (_ :: _) => true
  end.

(** [ToString], as a template literal applies it to a substitution. *)
Definition ToString (v : value) : jsstring :=
  match v with
  | Undefined => str "undefined"
  | Str s => s
  end.

(** [Boolean], the callback given to [filter], on an array of strings. *)
Definition Boolean (s : jsstring) : bool := ToBoolean (Str s).

(** [a[i]]. *)
Definition get (a : list jsstring) (i : nat) : value :=
  match nth_error a i with
  | Some s => Str s
  | None => Undefined
  end.

(** [v.trim()]: property access on [undefined] throws. *)
Definition call_trim (v : value) : completion value :=
  match v with
  | Undefined => Throw TypeError
  | Str s => Normal (Str (trim s))
  end.

(** [v?.trim()]: the chain short-circuits to [undefined]. *)
Definition optional_call_trim (v : value) : completion value :=
  match v with
  | Undefined => Normal Undefined
  | Str _ => call_trim v
  end.

End JS.

Import JS.

Notation "x <- m ;; k" := (bind m (fun x => k))
  (at level 61, m at next level, right associativity).

(** ** The script *)

(** The page: the two text areas the script looks up by id. *)
Record Document : Type := mkDocument {
  inputHeaders : jsstring;
  outputHeaders : jsstring
}.

(** One turn of the [for] body (script.js, lines 7 to 11). *)
Definition loop_body (lines : list jsstring) (i : nat) (result : jsstring)
  : completion jsstring :=
  key <- optional_call_trim (get lines i) ;;
  value <- optional_call_trim (get lines (i + 1)) ;;
  if ToBoolean key && ToBoolean value
  then Normal (result ++ ToString key ++ str ": " ++ ToString value ++ [LF])
  else Normal result.

(** [for (let i = 0; i < lines.length; i += 2) { ... }], from index [i]
    with the accumulated [result]. *)
Equations? for_loop (lines : list jsstring) (i : nat) (result : jsstring)
  : completion jsstring by wf (length lines - i) lt :=
  for_loop lines i result with lt_dec i (length lines) := {
    | left _ with loop_body lines i result := {
        | Normal r => for_loop lines (i + 2) r
        | Throw e => Throw e }
    | right _ => Normal result }.
Proof. lia. Qed.

(** The transform between the two text areas (script.js, lines 2 to 14,
    the DOM accesses apart). *)
Definition format (raw : jsstring) : completion jsstring :=
  let input := trim raw in
  let lines := filter Boolean (split LF input) in
  result <- for_loop lines 0 [] ;;
  Normal (trim result).

(** [formatHeaders()]: reads the input area, writes the output area. *)
Definition formatHeaders (doc : Document) : completion Document :=
  out <- format (inputHeaders doc) ;;
  Normal {| inputHeaders := inputHeaders doc; outputHeaders := out |}.









(** ** Reading the result *)

(** [ls.join(sep)]. *)
Fixpoint join (sep : code_unit) (ls : list jsstring) : jsstring :=
  match ls with
  | [] => []
  | [l] => l
  | l :: rest => l ++ sep :: join sep rest
  end.

(** The array the loop walks: the non-empty lines of the trimmed input. *)
Definition lines_of (raw : jsstring) : list jsstring :=
  filter Boolean (split LF (trim raw)).

(** Entry [2k] with entry [2k+1]. *)
Definition pair_at (lines : list jsstring) (k : nat) : jsstring * jsstring :=
  (nth (2 * k) lines [], nth (2 * k + 1) lines []).

(** The positional pairs of [lines], in increasing position; an odd last
    entry has no partner and is in none of them. *)
Definition pairs (lines : list jsstring) : list (jsstring * jsstring) :=
  map (pair_at lines) (seq 0 (length lines / 2)).

(** The test [key && value] on a pair of lines. *)
Definition retained (p : jsstring * jsstring) : bool :=
  Boolean (trim (fst p)) && Boolean (trim (snd p)).

(** The text emitted for a retained pair, its final "\n" apart. *)
Definition render (p : jsstring * jsstring) : jsstring :=
  trim (fst p) ++ str ": " ++ trim (snd p).

(** All code units of [s] are stripped by [trim]. *)
Definition all_ws (s : jsstring) : bool := forallb is_ws s.

(** A line that trims to the empty string. *)
Definition blank (l : jsstring) : bool := negb (Boolean (trim l)).

Definition count_nonblank (ls : list jsstring) : nat :=
  length (filter (fun l => negb (blank l)) ls).

(** The lines of an output text: the empty text has none, any other text
    has the pieces between its "\n". *)
Definition text_lines (out : jsstring) : list jsstring :=
  match out with
  | [] => []
  | _ :: _ => split LF out
  end.

Definition output_lines (out : jsstring) : nat := length (text_lines out).

(** Neither the first nor the last code unit of [s] is stripped by
    [trim]. *)
Definition no_edge_ws (s : jsstring) : bool :=
  match s with
  | [] => true
  | c :: _ => negb (is_ws c) && negb (is_ws (last s c))
  end.

(** The entries of [l] taken two by two; an odd last entry is left out. *)
Fixpoint chunks (l : list jsstring) : list (jsstring * jsstring) :=
  match l with
  | a :: b :: rest => (a, b) :: chunks rest
  | _ => []
  end.

(** What the loop appends to [result] while it walks [l]. *)
Definition emit (l : list jsstring) : jsstring :=
  concat (map (fun p => render p ++ [LF]) (filter retained (chunks l))).

(** The last code unit of [s] is "\n". *)
Definition ends_with_newline (s : jsstring) : bool :=
  match rev s with
  | [] => false
  | c :: _ => (c =? LF)%N
  end.

(** [h] put in front of the first piece of a split. *)
Definition prepend (h : jsstring) (ls : list jsstring) : list jsstring :=
  match ls with
  | [] => [h]
  | l :: ls' => (h ++ l) :: ls'
  end.

(** ** Lemmas on the built-ins *)

Section Trim.

Lemma trimStart_app_ws (pre s : jsstring) :
  all_ws pre = true -> trimStart (pre ++ s) = trimStart s.
Proof.
  induction pre as [|c pre IH]; simpl; [reflexivity|].
  intros H. apply andb_prop in H as [Hc Hp]. rewrite Hc. auto.
Qed.

Lemma trimEnd_all_ws (post : jsstring) :
  all_ws post = true -> trimEnd post = [].
Proof.
  induction post as [|c post IH]; simpl; [reflexivity|].
  intros H. apply andb_prop in H as [Hc Hp].
  rewrite (IH Hp), Hc. reflexivity.
Qed.

Lemma trimEnd_app_ws (s post : jsstring) :
  all_ws post = true -> trimEnd (s ++ post) = trimEnd s.
Proof.
  intros H. induction s as [|c s IH]; simpl.
  - now apply trimEnd_all_ws.
  - now rewrite IH.
Qed.

Lemma trimStart_all_ws (s : jsstring) :
  all_ws s = true -> trimStart s = [].
Proof.
  intros H. rewrite <- (app_nil_r s). now rewrite trimStart_app_ws.
Qed.

(** The two halves of [trim] commute. *)
Lemma trimStart_trimEnd (s : jsstring) :
  trimStart (trimEnd s) = trimEnd (trimStart s).
Proof.
  induction s as [|c s IH]; [reflexivity|].
  cbn [trimStart trimEnd].
  destruct (is_ws c) eqn:Hc.
  - rewrite <- IH. destruct (trimEnd s); simpl; [reflexivity|].
    now rewrite Hc.
  - cbn [trimEnd]. destruct (trimEnd s); simpl; now rewrite Hc.
Qed.

Lemma trimStart_split (s : jsstring) :
  exists pre, s = pre ++ trimStart s /\ all_ws pre = true.
Proof.
  induction s as [|c s [pre [E H]]]; simpl.
  - now exists [].
  - destruct (is_ws c) eqn:Hc.
    + exists (c :: pre). simpl. rewrite Hc, H. split; [now f_equal|reflexivity].
    + now exists [].
Qed.

Lemma trimEnd_split (s : jsstring) :
  exists post, s = trimEnd s ++ post /\ all_ws post = true.
Proof.
  induction s as [|c s [post [E H]]]; simpl.
  - now exists [].
  - destruct (trimEnd s) as [|d t] eqn:Ht.
    + simpl in E. subst post. destruct (is_ws c) eqn:Hc.
      * exists (c :: s). simpl. now rewrite Hc, H.
      * now exists s.
    + exists post. split; [|assumption]. simpl. now f_equal.
Qed.

(** [trim] removes a run of stripped units at each end and nothing else. *)
Lemma trim_split (s : jsstring) :
  exists pre post,
    s = pre ++ trim s ++ post /\ all_ws pre = true /\ all_ws post = true.
Proof.
  destruct (trimStart_split s) as [pre [E1 H1]].
  destruct (trimEnd_split (trimStart s)) as [post [E2 H2]].
  exists pre, post. unfold trim. now rewrite <- E2, <- E1.
Qed.

Lemma trimStart_head (s : jsstring) (c : code_unit) (t : jsstring) :
  trimStart s = c :: t -> is_ws c = false.
Proof.
  induction s as [|d s IH]; simpl; [discriminate|].
  destruct (is_ws d) eqn:Hd; [assumption|].
  intros E. injection E as -> _. assumption.
Qed.

Lemma trimStart_fixed (c : code_unit) (t : jsstring) :
  is_ws c = false -> trimStart (c :: t) = c :: t.
Proof. intros H. simpl. now rewrite H. Qed.

Lemma trimEnd_fixed (t : jsstring) (c : code_unit) :
  is_ws c = false -> trimEnd (t ++ [c]) = t ++ [c].
Proof.
  intros H. induction t as [|d t IH]; simpl.
  - now rewrite H.
  - rewrite IH. now destruct (t ++ [c]) eqn:E; [destruct t; discriminate|].
Qed.

Lemma trimEnd_last (s : jsstring) :
  trimEnd s <> [] ->
  exists t c, trimEnd s = t ++ [c] /\ is_ws c = false.
Proof.
  induction s as [|d s IH]; simpl; [congruence|].
  destruct (trimEnd s) as [|e u] eqn:Hu.
  - destruct (is_ws d) eqn:Hd; [congruence|]. intros _. now exists [], d.
  - intros _. destruct IH as [t [c [E Hc]]]; [discriminate|].
    exists (d :: t), c. split; [|assumption]. simpl. now rewrite E.
Qed.

Lemma trimEnd_head (s : jsstring) (c : code_unit) :
  trimEnd (c :: s) = [] \/ exists t, trimEnd (c :: s) = c :: t.
Proof.
  simpl. destruct (trimEnd s).
  - destruct (is_ws c); [now left|right; now exists []].
  - right. eauto.
Qed.

Lemma trimStart_app_keep (a x : jsstring) :
  trimStart a <> [] -> trimStart (a ++ x) = trimStart a ++ x.
Proof.
  induction a as [|c a IH]; simpl; [congruence|].
  destruct (is_ws c); [assumption|reflexivity].
Qed.

Lemma trimEnd_app_keep (x b : jsstring) :
  trimEnd b <> [] -> trimEnd (x ++ b) = x ++ trimEnd b.
Proof.
  intros H. induction x as [|c x IH]; simpl; [reflexivity|].
  rewrite IH. destruct (x ++ trimEnd b) eqn:E; [|reflexivity].
  apply app_eq_nil in E as [_ E]. congruence.
Qed.

Lemma trim_nonempty_start (s : jsstring) :
  trim s <> [] -> trimStart s <> [].
Proof. unfold trim. intros H E. rewrite E in H. now apply H. Qed.

Lemma trim_nonempty_end (s : jsstring) :
  trim s <> [] -> trimEnd s <> [].
Proof.
  unfold trim. rewrite <- trimStart_trimEnd. intros H E.
  rewrite E in H. now apply H.
Qed.

(** Stripped units around a string do not change what it trims to. *)
Lemma trim_app_ws (pre s post : jsstring) :
  all_ws pre = true -> all_ws post = true ->
  trim (pre ++ s ++ post) = trim s.
Proof.
  intros Hpre Hpost. unfold trim.
  rewrite trimStart_app_ws by assumption.
  rewrite <- !trimStart_trimEnd. now rewrite trimEnd_app_ws.
Qed.

Lemma trim_cons_ws (c : code_unit) (s : jsstring) :
  is_ws c = true -> trim (c :: s) = trim s.
Proof. intros H. unfold trim. simpl. now rewrite H. Qed.

Lemma trim_snoc_ws (s : jsstring) (c : code_unit) :
  is_ws c = true -> trim (s ++ [c]) = trim s.
Proof.
  intros H. rewrite <- (trim_app_ws [] s [c]); [reflexivity..|].
  simpl. now rewrite H.
Qed.

Lemma trim_In (s : jsstring) (c : code_unit) :
  In c (trim s) -> In c s.
Proof.
  destruct (trim_split s) as [pre [post [E _]]]. intros H.
  rewrite E. apply in_or_app. right. apply in_or_app. now left.
Qed.

Lemma last_snoc (t : jsstring) (c d : code_unit) :
  last (t ++ [c]) d = c.
Proof. apply last_last. Qed.

(** What [trim] returns has no stripped unit at either end. *)
Lemma trim_no_edge_ws (s : jsstring) : no_edge_ws (trim s) = true.
Proof.
  unfold trim. destruct (trimEnd (trimStart s)) as [|c t] eqn:E.
  - reflexivity.
  - destruct (trimEnd_last (trimStart s)) as [u [d [E' Hd]]];
      [congruence|].
    assert (Hc : is_ws c = false).
    { destruct (trimStart s) as [|c' t'] eqn:Es; [discriminate|].
      destruct (trimEnd_head t' c') as [H|[w H]]; rewrite H in E.
      - discriminate.
      - injection E as -> _. now apply (trimStart_head s _ _ Es). }
    unfold no_edge_ws. rewrite Hc. rewrite <- E, E', last_snoc, Hd.
    reflexivity.
Qed.

(** A string with no stripped unit at either end is its own trim. *)
Lemma trim_fixed (s : jsstring) : no_edge_ws s = true -> trim s = s.
Proof.
  destruct s as [|c t]; [reflexivity|].
  unfold no_edge_ws. intros H. apply andb_prop in H as [Hc Hl].
  apply negb_true_iff in Hc, Hl.
  unfold trim. rewrite trimStart_fixed by assumption.
  destruct (@exists_last _ (c :: t)) as [u [d E]]; [discriminate|].
  rewrite E in Hl |- *. rewrite last_snoc in Hl.
  now apply trimEnd_fixed.
Qed.

Lemma blank_cons_ws (c : code_unit) (l : jsstring) :
  is_ws c = true -> blank (c :: l) = blank l.
Proof. intros H. unfold blank. now rewrite trim_cons_ws. Qed.

Lemma blank_snoc_ws (l : jsstring) (c : code_unit) :
  is_ws c = true -> blank (l ++ [c]) = blank l.
Proof. intros H. unfold blank. now rewrite trim_snoc_ws. Qed.

Lemma is_ws_LF : is_ws LF = true.
Proof. reflexivity. Qed.

End Trim.

Section Split.

Variable sep : code_unit.

Lemma split_not_nil (s : jsstring) : split sep s <> [].
Proof.
  destruct s as [|c t]; simpl; [discriminate|].
  destruct (c =? sep)%N; [discriminate|].
  destruct (split sep t); discriminate.
Qed.

(** Splitting at an occurrence of the separator. *)
Lemma split_app (a b : jsstring) :
  ~ In sep a -> split sep (a ++ sep :: b) = a :: split sep b.
Proof.
  induction a as [|c a IH]; simpl; intros H.
  - now rewrite N.eqb_refl.
  - destruct (N.eqb_spec c sep) as [->|Hne]; [tauto|].
    rewrite IH by tauto. reflexivity.
Qed.

Lemma split_no_sep (a : jsstring) : ~ In sep a -> split sep a = [a].
Proof.
  induction a as [|c a IH]; simpl; intros H; [reflexivity|].
  destruct (N.eqb_spec c sep) as [->|Hne]; [tauto|].
  rewrite IH by tauto. reflexivity.
Qed.

(** Splitting a concatenation at a separator, whatever the left part. *)
Lemma split_app_sep (a b : jsstring) :
  split sep (a ++ sep :: b) = split sep a ++ split sep b.
Proof.
  induction a as [|c a IH]; simpl.
  - now rewrite N.eqb_refl.
  - destruct (c =? sep)%N; [now rewrite IH|].
    rewrite IH.
    destruct (split sep a) eqn:E; [now apply split_not_nil in E|].
    reflexivity.
Qed.

Lemma split_pieces (s : jsstring) :
  Forall (fun l => ~ In sep l) (split sep s).
Proof.
  induction s as [|c s IH]; simpl.
  - constructor; [tauto|constructor].
  - destruct (N.eqb_spec c sep) as [->|Hne].
    + constructor; [tauto|assumption].
    + destruct (split sep s) as [|l ls]; [repeat constructor; simpl; tauto|].
      inversion IH; subst. constructor; [|assumption].
      simpl. intros [?|?]; congruence || tauto.
Qed.

Lemma join_cons (l : jsstring) (ls : list jsstring) :
  ls <> [] -> join sep (l :: ls) = l ++ sep :: join sep ls.
Proof. destruct ls; [congruence|reflexivity]. Qed.

(** [split] undoes [join] on pieces that hold no separator. *)
Lemma split_join (ls : list jsstring) :
  ls <> [] -> Forall (fun l => ~ In sep l) ls ->
  split sep (join sep ls) = ls.
Proof.
  induction ls as [|l ls IH]; [congruence|].
  intros _ H. inversion H as [|? ? Hl Hls]; subst.
  destruct ls as [|l' ls'].
  - simpl. now apply split_no_sep.
  - rewrite join_cons by discriminate.
    rewrite split_app by assumption. f_equal. now apply IH.
Qed.

Lemma join_split (s : jsstring) : join sep (split sep s) = s.
Proof.
  induction s as [|c s IH]; [reflexivity|]. simpl.
  destruct (N.eqb_spec c sep) as [->|Hne].
  - rewrite join_cons by apply split_not_nil. simpl. now rewrite IH.
  - destruct (split sep s) as [|l ls] eqn:E; [now apply split_not_nil in E|].
    destruct ls as [|l' ls'].
    + simpl in *. now rewrite IH.
    + rewrite <- IH. reflexivity.
Qed.

End Split.

(** ** The loop, unrolled *)

Section Loop.

Lemma Boolean_true (s : jsstring) : Boolean s = true <-> s <> [].
Proof. destruct s; cbn; split; congruence. Qed.

Lemma skipn_nth_error (lines : list jsstring) (i : nat) :
  skipn i lines =
  match nth_error lines i with
  | Some a => a :: skipn (S i) lines
  | None => []
  end.
Proof.
  revert i. induction lines as [|l lines IH]; intros [|i]; try reflexivity.
  simpl. rewrite IH. reflexivity.
Qed.

(** One turn appends the text of the pair at [i], if it is retained. *)
Lemma loop_body_eq (lines : list jsstring) (i : nat) (result : jsstring) :
  loop_body lines i result =
  Normal (result ++
          match skipn i lines with
          | a :: b :: _ =>
              if retained (a, b) then render (a, b) ++ [LF] else []
          | _ => []
          end).
Proof.
  unfold loop_body, get. rewrite (skipn_nth_error lines i), Nat.add_1_r.
  destruct (nth_error lines i) as [a|] eqn:Ha.
  - rewrite (skipn_nth_error lines (S i)).
    destruct (nth_error lines (S i)) as [b|];
      cbn [bind optional_call_trim call_trim ToString].
    + unfold retained, render, Boolean. cbn [fst snd].
      destruct (ToBoolean (Str (trim a)) && ToBoolean (Str (trim b)));
        [|now rewrite app_nil_r].
      now rewrite <- !app_assoc.
    + cbn [ToBoolean]. rewrite andb_false_r. now rewrite app_nil_r.
  - assert (E : nth_error lines (S i) = None).
    { apply nth_error_None. apply nth_error_None in Ha. lia. }
    rewrite E. cbn [bind optional_call_trim ToBoolean andb].
    now rewrite app_nil_r.
Qed.

Lemma emit_step (lines : list jsstring) (i : nat) :
  emit (skipn i lines) =
  match skipn i lines with
  | a :: b :: _ =>
      if retained (a, b) then render (a, b) ++ [LF] else []
  | _ => []
  end ++ emit (skipn (i + 2) lines).
Proof.
  replace (i + 2) with (2 + i) by lia. rewrite <- skipn_skipn.
  destruct (skipn i lines) as [|a [|b rest]]; try reflexivity.
  unfold emit. cbn [chunks filter skipn].
  destruct (retained (a, b)); [|reflexivity].
  cbn [map concat]. reflexivity.
Qed.

(** The loop never throws, and appends [emit] of what is left to walk. *)
Lemma for_loop_eq (lines : list jsstring) (i : nat) (result : jsstring) :
  for_loop lines i result = Normal (result ++ emit (skipn i lines)).
Proof.
  funelim (for_loop lines i result).
  - rewrite skipn_all2 by lia. now rewrite app_nil_r.
  - match goal with IH : forall _, for_loop _ _ _ = Normal _ |- _ => rewrite IH
    | IH : for_loop _ _ _ = Normal _ |- _ => rewrite IH end.
    match goal with E : loop_body _ _ _ = _ |- _ =>
      rewrite loop_body_eq in E; injection E as <- end.
    rewrite (emit_step lines i). now rewrite app_assoc.
  - match goal with E : loop_body _ _ _ = _ |- _ =>
      rewrite loop_body_eq in E; discriminate E end.
Qed.

Lemma pair_at_cons2 (a b : jsstring) (rest : list jsstring) (k : nat) :
  pair_at (a :: b :: rest) (S k) = pair_at rest k.
Proof.
  unfold pair_at. replace (2 * S k) with (S (S (2 * k))) by lia.
  reflexivity.
Qed.

Lemma pairs_cons2 (a b : jsstring) (rest : list jsstring) :
  pairs (a :: b :: rest) = (a, b) :: pairs rest.
Proof.
  unfold pairs. cbn [length].
  replace (S (S (length rest)) / 2) with (S (length rest / 2)).
  2:{ replace (S (S (length rest))) with (length rest + 1 * 2) by lia.
      rewrite Nat.div_add by lia. lia. }
  cbn [seq map]. rewrite <- seq_shift, map_map. f_equal.
  apply map_ext. intros k. apply pair_at_cons2.
Qed.

Lemma list_ind2 (A : Type) (P : list A -> Prop) :
  P [] -> (forall a, P [a]) ->
  (forall a b rest, P rest -> P (a :: b :: rest)) ->
  forall l, P l.
Proof.
  intros H0 H1 H2.
  assert (H : forall l, P l /\ forall a, P (a :: l)).
  { induction l as [|x l [IH1 IH2]]; split; auto. }
  intros l. apply H.
Qed.

(** Walking two by two is pairing by position. *)
Lemma pairs_chunks (l : list jsstring) : pairs l = chunks l.
Proof.
  induction l as [| a | a b rest IH] using list_ind2; try reflexivity.
  rewrite pairs_cons2, IH. reflexivity.
Qed.

End Loop.

(** ** The final trim *)

Section Output.

Lemma no_edge_ws_intro (c d : code_unit) (t u : jsstring) :
  c :: t = u ++ [d] -> is_ws c = false -> is_ws d = false ->
  no_edge_ws (c :: t) = true.
Proof.
  intros E Hc Hd. unfold no_edge_ws. rewrite E.
  now rewrite last_snoc, Hc, Hd.
Qed.

Lemma no_edge_ws_elim (s : jsstring) :
  s <> [] -> no_edge_ws s = true ->
  exists c t u d,
    s = c :: t /\ s = u ++ [d] /\ is_ws c = false /\ is_ws d = false.
Proof.
  destruct s as [|c t]; [congruence|]. intros _ H.
  unfold no_edge_ws in H. apply andb_prop in H as [Hc Hl].
  apply negb_true_iff in Hc, Hl.
  destruct (@exists_last _ (c :: t)) as [u [d E]]; [discriminate|].
  rewrite E, last_snoc in Hl. now exists c, t, u, d.
Qed.

(** Clean edges survive putting anything in the middle. *)
Lemma no_edge_ws_app (a x b : jsstring) :
  a <> [] -> b <> [] ->
  no_edge_ws a = true -> no_edge_ws b = true ->
  no_edge_ws (a ++ x ++ b) = true.
Proof.
  intros Ha Hb Ca Cb.
  destruct (no_edge_ws_elim _ Ha Ca) as [c [t [_ [_ [-> [_ [Hc _]]]]]]].
  destruct (no_edge_ws_elim _ Hb Cb) as [_ [_ [u [d [_ [-> [_ Hd]]]]]]].
  apply (no_edge_ws_intro c d (t ++ x ++ u ++ [d]) ((c :: t) ++ x ++ u));
    [|assumption..].
  now rewrite <- !app_assoc.
Qed.

Lemma render_retained (p : jsstring * jsstring) :
  retained p = true -> render p <> [] /\ no_edge_ws (render p) = true.
Proof.
  unfold retained, render. intros H. apply andb_prop in H as [Hk Hv].
  apply Boolean_true in Hk, Hv. split.
  - intros E. apply app_eq_nil in E as [E _]. congruence.
  - apply no_edge_ws_app; auto using trim_no_edge_ws.
Qed.

Lemma join_no_edge_ws (rs : list jsstring) :
  rs <> [] ->
  Forall (fun r => r <> [] /\ no_edge_ws r = true) rs ->
  join LF rs <> [] /\ no_edge_ws (join LF rs) = true.
Proof.
  induction rs as [|r rs IH]; [congruence|].
  intros _ H. inversion H as [|? ? [Hr Cr] Hrs]; subst.
  destruct rs as [|r' rs'].
  - now split.
  - rewrite join_cons by discriminate.
    destruct IH as [Hj Cj]; [discriminate|assumption|]. split.
    + intros E. apply app_eq_nil in E as [E _]. congruence.
    + now apply (no_edge_ws_app r [LF]).
Qed.

Lemma concat_join (rs : list jsstring) :
  rs <> [] ->
  concat (map (fun r => r ++ [LF]) rs) = join LF rs ++ [LF].
Proof.
  induction rs as [|r rs IH]; [congruence|]. intros _.
  destruct rs as [|r' rs'].
  - simpl. now rewrite app_nil_r.
  - rewrite join_cons by discriminate.
    change (concat (map (fun r => r ++ [LF]) (r :: r' :: rs')))
      with ((r ++ [LF]) ++ concat (map (fun r => r ++ [LF]) (r' :: rs'))).
    rewrite IH by discriminate. now rewrite <- !app_assoc.
Qed.

(** The final [result.trim()] removes the last "\n" and nothing else. *)
Lemma trim_result (ps : list (jsstring * jsstring)) :
  Forall (fun p => retained p = true) ps ->
  trim (concat (map (fun p => render p ++ [LF]) ps)) =
  join LF (map render ps).
Proof.
  intros H. destruct ps as [|p ps]; [reflexivity|].
  rewrite <- (map_map render (fun r => r ++ [LF])).
  rewrite concat_join by discriminate.
  rewrite trim_snoc_ws by apply is_ws_LF.
  apply trim_fixed. apply join_no_edge_ws; [discriminate|].
  apply Forall_map. eapply Forall_impl; [|exact H].
  intros q Hq. now apply render_retained.
Qed.

Lemma retained_filter (l : list (jsstring * jsstring)) :
  Forall (fun p => retained p = true) (filter retained l).
Proof. apply Forall_forall. intros p Hp. now apply filter_In in Hp. Qed.

(** [format] in closed form: it returns normally, the retained
    positional pairs of the filtered lines, one per line. *)
Lemma format_eq (raw : jsstring) :
  format raw =
  Normal (join LF (map render (filter retained (pairs (lines_of raw))))).
Proof.
  unfold format. fold (lines_of raw). rewrite for_loop_eq.
  cbn [bind skipn app]. unfold emit.
  rewrite trim_result by apply retained_filter.
  now rewrite pairs_chunks.
Qed.

End Output.

(** ** Counting lines *)

Section Counting.

Lemma split_cons (c : code_unit) (s : jsstring) :
  split LF (c :: s) =
  if (c =? LF)%N then [] :: split LF s else prepend [c] (split LF s).
Proof. reflexivity. Qed.

Lemma prepend_nil (ls : list jsstring) : ls <> [] -> prepend [] ls = ls.
Proof. destruct ls; [congruence|reflexivity]. Qed.

Lemma prepend_prepend (h : jsstring) (c : code_unit) (ls : list jsstring) :
  ls <> [] -> prepend h (prepend [c] ls) = prepend (h ++ [c]) ls.
Proof.
  destruct ls; [congruence|]. intros _. simpl. now rewrite <- app_assoc.
Qed.

Lemma count_nonblank_cons (l : jsstring) (ls : list jsstring) :
  count_nonblank (l :: ls) =
  (if blank l then 0 else 1) + count_nonblank ls.
Proof. unfold count_nonblank. simpl. now destruct (blank l). Qed.

Lemma blank_nil : blank [] = true.
Proof. reflexivity. Qed.

Lemma count_split_ws (post : jsstring) :
  all_ws post = true ->
  forall h, count_nonblank (prepend h (split LF post)) = count_nonblank [h].
Proof.
  induction post as [|c post IH]; intros H h.
  - simpl. now rewrite app_nil_r.
  - simpl in H. apply andb_prop in H as [Hc Hp]. rewrite split_cons.
    destruct (N.eqb_spec c LF) as [->|Hne].
    + cbn [prepend]. rewrite app_nil_r, !count_nonblank_cons.
      rewrite <- (prepend_nil _ (split_not_nil LF post)), (IH Hp []).
      reflexivity.
    + rewrite prepend_prepend by apply split_not_nil. rewrite (IH Hp).
      rewrite !count_nonblank_cons. now rewrite blank_snoc_ws.
Qed.

(** Stripped units after the text add no non-blank line. *)
Lemma count_split_app_ws (x post : jsstring) :
  all_ws post = true ->
  forall h,
    count_nonblank (prepend h (split LF (x ++ post))) =
    count_nonblank (prepend h (split LF x)).
Proof.
  intros H. induction x as [|c x IH]; intros h.
  - rewrite (count_split_ws _ H). simpl. now rewrite app_nil_r.
  - rewrite <- app_comm_cons, !split_cons.
    destruct (N.eqb_spec c LF) as [->|Hne].
    + cbn [prepend]. rewrite !count_nonblank_cons. f_equal.
      rewrite <- (prepend_nil _ (split_not_nil LF (x ++ post))).
      rewrite <- (prepend_nil _ (split_not_nil LF x)). apply IH.
    + rewrite !prepend_prepend by apply split_not_nil. apply IH.
Qed.

(** Stripped units before the text add no non-blank line. *)
Lemma count_split_ws_app (pre s : jsstring) :
  all_ws pre = true ->
  count_nonblank (split LF (pre ++ s)) = count_nonblank (split LF s).
Proof.
  induction pre as [|c pre IH]; intros H; [reflexivity|].
  simpl in H. apply andb_prop in H as [Hc Hp].
  rewrite <- app_comm_cons, split_cons.
  destruct (N.eqb_spec c LF) as [->|Hne].
  - rewrite count_nonblank_cons, blank_nil. now apply IH.
  - rewrite <- (IH Hp).
    destruct (split LF (pre ++ s)) as [|l ls] eqn:E;
      [now apply split_not_nil in E|].
    cbn [prepend app]. rewrite !count_nonblank_cons.
    now rewrite blank_cons_ws.
Qed.

(** Trimming the whole input keeps the number of non-blank lines. *)
Lemma count_split_trim (raw : jsstring) :
  count_nonblank (split LF (trim raw)) = count_nonblank (split LF raw).
Proof.
  destruct (trim_split raw) as [pre [post [E [Hpre Hpost]]]].
  rewrite E at 2. rewrite count_split_ws_app by assumption.
  rewrite <- (prepend_nil _ (split_not_nil LF (trim raw ++ post))).
  rewrite count_split_app_ws by assumption.
  now rewrite prepend_nil by apply split_not_nil.
Qed.

(** Dropping the empty entries drops no non-blank line. *)
Lemma count_filter_Boolean (ls : list jsstring) :
  count_nonblank (filter Boolean ls) = count_nonblank ls.
Proof.
  induction ls as [|l ls IH]; [reflexivity|]. cbn [filter].
  destruct l as [|c l].
  - cbn [Boolean ToBoolean]. now rewrite count_nonblank_cons, blank_nil.
  - cbn [Boolean ToBoolean]. rewrite !count_nonblank_cons. now rewrite IH.
Qed.

Lemma count_lines_of (raw : jsstring) :
  count_nonblank (lines_of raw) = count_nonblank (split LF raw).
Proof.
  unfold lines_of. now rewrite count_filter_Boolean, count_split_trim.
Qed.

(** Each retained pair uses up two non-blank lines. *)
Lemma retained_count (l : list jsstring) :
  2 * length (filter retained (chunks l)) <= count_nonblank l.
Proof.
  induction l as [| a | a b rest IH] using list_ind2;
    [simpl; lia..|].
  cbn [chunks filter]. rewrite !count_nonblank_cons.
  destruct (retained (a, b)) eqn:R.
  - unfold retained in R. apply andb_prop in R as [Ra Rb]. cbn [fst snd] in *.
    unfold blank. rewrite Ra, Rb. cbn [negb length]. lia.
  - lia.
Qed.

Lemma chunks_In (l : list jsstring) (p : jsstring * jsstring) :
  In p (chunks l) -> In (fst p) l /\ In (snd p) l.
Proof.
  induction l as [| a | a b rest IH] using list_ind2; simpl; try tauto.
  intros [<-|H]; simpl; tauto.
Qed.

Lemma lines_of_no_LF (raw l : jsstring) :
  In l (lines_of raw) -> ~ In LF l.
Proof.
  unfold lines_of. intros H. apply filter_In in H as [H _].
  pose proof (split_pieces LF (trim raw)) as F.
  rewrite Forall_forall in F. now apply F.
Qed.

Lemma render_no_LF (p : jsstring * jsstring) :
  ~ In LF (fst p) -> ~ In LF (snd p) -> ~ In LF (render p).
Proof.
  unfold render. intros Hk Hv H.
  apply in_app_or in H as [H|H]; [now apply trim_In in H|].
  apply in_app_or in H as [H|H]; [|now apply trim_In in H].
  simpl in H. unfold LF in H. intuition discriminate.
Qed.

(** The lines of the returned text are the rendered retained pairs. *)
Lemma text_lines_output (raw : jsstring) :
  text_lines (join LF (map render (filter retained (pairs (lines_of raw))))) =
  map render (filter retained (pairs (lines_of raw))).
Proof.
  set (ps := filter retained (pairs (lines_of raw))).
  destruct ps as [|p ps'] eqn:E; [reflexivity|].
  assert (Hne : map render (p :: ps') <> []) by discriminate.
  assert (F : Forall (fun q => retained q = true) (p :: ps')).
  { rewrite <- E. apply retained_filter. }
  destruct (join_no_edge_ws (map render (p :: ps')) Hne) as [Hj _].
  { apply Forall_map. eapply Forall_impl; [|exact F].
    intros q Hq. now apply render_retained. }
  unfold text_lines.
  destruct (join LF (map render (p :: ps'))) eqn:J; [congruence|].
  rewrite <- J. apply split_join; [assumption|].
  apply Forall_map. apply Forall_forall. intros q Hq.
  assert (Hq' : In q (chunks (lines_of raw))).
  { rewrite <- pairs_chunks. rewrite <- E in Hq. unfold ps in Hq.
    now apply filter_In in Hq. }
  apply chunks_In in Hq' as [Hk Hv].
  apply render_no_LF; eauto using lines_of_no_LF.
Qed.

End Counting.

(** ** How the input trim and the filter shape the walked lines *)

Section Lines.

Lemma trimStart_nil_all_ws (s : jsstring) :
  trimStart s = [] -> all_ws s = true.
Proof.
  intros E. destruct (trimStart_split s) as [pre [Hs Hpre]].
  rewrite E, app_nil_r in Hs. now subst pre.
Qed.

Lemma trimEnd_nil_all_ws (s : jsstring) :
  trimEnd s = [] -> all_ws s = true.
Proof.
  intros E. destruct (trimEnd_split s) as [post [Hs Hpost]].
  rewrite E in Hs. simpl in Hs. now subst post.
Qed.

Lemma all_ws_app (a b : jsstring) :
  all_ws a = true -> all_ws b = true -> all_ws (a ++ b) = true.
Proof. unfold all_ws. intros Ha Hb. now rewrite forallb_app, Ha, Hb. Qed.

Lemma lines_of_app_ws (pre raw post : jsstring) :
  all_ws pre = true -> all_ws post = true ->
  lines_of (pre ++ raw ++ post) = lines_of raw.
Proof. intros Hpre Hpost. unfold lines_of. now rewrite trim_app_ws. Qed.

(** With text on both sides, the input trim touches neither the middle
    nor the inner edges. *)
Lemma trim_app_keep (a m b : jsstring) :
  trim a <> [] -> trim b <> [] ->
  trim (a ++ m ++ b) = trimStart a ++ m ++ trimEnd b.
Proof.
  intros Ha Hb. unfold trim.
  rewrite trimStart_app_keep by now apply trim_nonempty_start.
  rewrite !app_assoc. rewrite trimEnd_app_keep by now apply trim_nonempty_end.
  reflexivity.
Qed.

(** An empty line between two lines leaves the walked lines as they
    are without it. *)
Lemma lines_of_empty_line (a b : jsstring) :
  lines_of (a ++ LF :: LF :: b) = lines_of (a ++ LF :: b).
Proof.
  destruct (trimStart a) as [|c t] eqn:Ea.
  - apply trimStart_nil_all_ws in Ea.
    transitivity (lines_of b).
    + rewrite <- (lines_of_app_ws (a ++ [LF; LF]) b []);
        [|now apply all_ws_app|reflexivity].
      now rewrite app_nil_r, <- app_assoc.
    + rewrite <- (lines_of_app_ws (a ++ [LF]) b []);
        [|now apply all_ws_app|reflexivity].
      now rewrite app_nil_r, <- app_assoc.
  - destruct (trimEnd b) as [|d u] eqn:Eb.
    + apply trimEnd_nil_all_ws in Eb.
      transitivity (lines_of a).
      * now apply (lines_of_app_ws [] a (LF :: LF :: b)).
      * symmetry. now apply (lines_of_app_ws [] a (LF :: b)).
    + assert (Ha : trim a <> []).
      { unfold trim. rewrite Ea.
        destruct (trimEnd_head t c) as [H|[w H]].
        - apply trimEnd_nil_all_ws in H. simpl in H.
          rewrite (trimStart_head a c t Ea) in H. discriminate.
        - rewrite H. discriminate. }
      assert (Hb : trim b <> []).
      { unfold trim. rewrite <- trimStart_trimEnd, Eb.
        destruct (trimEnd_last b) as [v [e [E He]]]; [congruence|].
        rewrite Eb in E. intros N.
        apply trimStart_nil_all_ws in N. rewrite E in N.
        unfold all_ws in N. rewrite forallb_app in N.
        apply andb_prop in N as [_ N]. simpl in N. rewrite He in N.
        discriminate. }
      unfold lines_of.
      change (a ++ LF :: LF :: b) with (a ++ [LF; LF] ++ b).
      change (a ++ LF :: b) with (a ++ [LF] ++ b).
      rewrite (trim_app_keep a [LF; LF] b Ha Hb).
      rewrite (trim_app_keep a [LF] b Ha Hb).
      cbn [app]. rewrite !split_app_sep, !filter_app.
      reflexivity.
Qed.

(** A line strictly inside the text is walked as it is. *)
Lemma lines_of_inner_line (a w b : jsstring) :
  trim a <> [] -> trim b <> [] -> w <> [] -> ~ In LF w ->
  lines_of (a ++ LF :: w ++ LF :: b) =
  filter Boolean (split LF (trimStart a)) ++
  w :: filter Boolean (split LF (trimEnd b)).
Proof.
  intros Ha Hb Hw Hn. unfold lines_of.
  replace (a ++ LF :: w ++ LF :: b) with (a ++ (LF :: w ++ [LF]) ++ b)
    by (cbn [app]; now rewrite <- app_assoc).
  rewrite trim_app_keep by assumption.
  cbn [app]. rewrite <- app_assoc. cbn [app].
  rewrite split_app_sep, (split_app LF w _ Hn), filter_app.
  cbn [filter]. apply Boolean_true in Hw. now rewrite Hw.
Qed.

End Lines.

(** ** Properties of [format] *)

Section Properties.

Lemma chunks_removelast_odd (l : list jsstring) :
  Nat.odd (length l) = true -> chunks (removelast l) = chunks l.
Proof.
  induction l as [| a | a b rest IH] using list_ind2.
  - discriminate.
  - reflexivity.
  - intros H. change (Nat.odd (length rest) = true) in H.
    destruct rest as [|c rest']; [discriminate|].
    change (removelast (a :: b :: c :: rest'))
      with (a :: b :: removelast (c :: rest')).
    cbn [chunks]. now rewrite IH.
Qed.

Lemma retained_match (p : jsstring * jsstring) :
  retained p =
  match trim (fst p), trim (snd p) with
  | _ :: _, _ :: _ => true
  | _, _ => false
  end.
Proof.
  unfold retained, Boolean.
  destruct (trim (fst p)), (trim (snd p)); reflexivity.
Qed.

Lemma format_total (raw : jsstring) : exists out, format raw = Normal out.
Proof. eexists. apply format_eq. Qed.

(** Without the optional chaining the read past the end would throw. *)
Remark unguarded_call_throws :
  call_trim (get [str "OnlyKey"] 1) = Throw TypeError /\
  optional_call_trim (get [str "OnlyKey"] 1) = Normal Undefined.
Proof. split; reflexivity. Qed.

(** C1. For every input, [format] pairs the filtered lines strictly by
    position, entry [2k] with entry [2k+1], and emits the retained pairs
    in increasing position, that is in input order; on "A\nB\nC\nD" it
    returns "A: B\nC: D". *)
Theorem format_pairs_by_position :
  (forall raw : jsstring,
      format raw =
      Normal
        (join LF
           (map render
              (filter retained
                 (map (fun k => (nth (2 * k) (lines_of raw) [],
                                 nth (2 * k + 1) (lines_of raw) []))
                    (seq 0 (length (lines_of raw) / 2))))))) /\
  format (str "A" ++ LF :: str "B" ++ LF :: str "C" ++ LF :: str "D") =
  Normal (str "A: B" ++ LF :: str "C: D").
Proof.
  split.
  - intros raw. apply format_eq.
  - reflexivity.
Qed.

(** C3. Empty lines are discarded before pairing: no walked line is
    empty, an empty line between two lines changes neither the walked
    lines nor the result, and on "A\n\nB" the result is "A: B". *)
Theorem empty_lines_discarded_before_pairing :
  (forall raw : jsstring, Forall (fun l => l <> []) (lines_of raw)) /\
  (forall a b : jsstring,
      lines_of (a ++ LF :: LF :: b) = lines_of (a ++ LF :: b) /\
      format (a ++ LF :: LF :: b) = format (a ++ LF :: b)) /\
  format (str "A" ++ LF :: LF :: str "B") = Normal (str "A: B").
Proof.
  split; [|split].
  - intros raw. apply Forall_forall. intros l Hl.
    apply filter_In in Hl as [_ Hl]. now apply Boolean_true.
  - intros a b. split; [apply lines_of_empty_line|].
    now rewrite !format_eq, lines_of_empty_line.
  - reflexivity.
Qed.

(** C4. Both the name and the value of every retained pair are trimmed
    before "name: value" is emitted: what is emitted is [trim] of each,
    which is the line less a run of stripped units at each end, with no
    stripped unit left at either end; on " A \n B " the result is
    "A: B". *)
Theorem names_and_values_trimmed :
  (forall raw : jsstring,
      format raw =
      Normal
        (join LF
           (map (fun p => trim (fst p) ++ str ": " ++ trim (snd p))
              (filter retained (pairs (lines_of raw)))))) /\
  (forall s : jsstring,
      exists pre post,
        s = pre ++ trim s ++ post /\
        all_ws pre = true /\ all_ws post = true /\
        no_edge_ws (trim s) = true) /\
  format (str " A " ++ LF :: str " B ") = Normal (str "A: B").
Proof.
  split; [|split].
  - intros raw. apply format_eq.
  - intros s. destruct (trim_split s) as [pre [post [E [H1 H2]]]].
    exists pre, post. auto using trim_no_edge_ws.
  - reflexivity.
Qed.

(** C5. When the filtered sequence has odd length its last entry adds
    nothing to the result; a pair whose name or value trims to empty is
    left out and no error is raised; on "OnlyKey" the result is empty. *)
Theorem unpaired_and_empty_dropped :
  (forall raw : jsstring,
      Nat.odd (length (lines_of raw)) = true ->
      format raw =
      Normal
        (join LF
           (map render
              (filter retained (pairs (removelast (lines_of raw))))))) /\
  (forall raw : jsstring,
      format raw =
      Normal
        (join LF
           (map render
              (filter
                 (fun p =>
                    match trim (fst p), trim (snd p) with
                    | _ :: _, _ :: _ => true
                    | _, _ => false
                    end)
                 (pairs (lines_of raw)))))) /\
  format (str "OnlyKey") = Normal (str "").
Proof.
  split; [|split].
  - intros raw H. rewrite format_eq, !pairs_chunks.
    now rewrite chunks_removelast_odd.
  - intros raw. rewrite format_eq. do 3 f_equal.
    apply filter_ext. exact retained_match.
  - reflexivity.
Qed.

Lemma unpaired_and_empty_dropped_witness :
  Nat.odd (length (lines_of (str "A" ++ LF :: str "B" ++ LF :: str "C")))
  = true /\
  format (str "A" ++ LF :: str "B" ++ LF :: str "C") =
  Normal
    (join LF
       (map render
          (filter retained
             (pairs
                (removelast
                   (lines_of (str "A" ++ LF :: str "B" ++ LF :: str "C"))))))).
Proof.
  split; [reflexivity|].
  apply (proj1 unpaired_and_empty_dropped). reflexivity.
Defined.

(** C6. On the empty string [format] returns the empty string, and
    [formatHeaders] on an empty input area leaves the output area
    empty. *)
Theorem format_empty :
  format (str "") = Normal (str "") /\
  (forall old : jsstring,
      formatHeaders (mkDocument (str "") old) =
      Normal (mkDocument (str "") (str ""))).
Proof. split; reflexivity. Qed.

(** C7. The result has at most floor(n / 2) lines, for n the number of
    lines of the input that do not trim to empty. *)
Theorem output_line_bound (raw : jsstring) :
  exists out,
    format raw = Normal out /\
    output_lines out <= count_nonblank (split LF raw) / 2.
Proof.
  eexists. split; [apply format_eq|].
  unfold output_lines. rewrite text_lines_output, length_map.
  apply Nat.div_le_lower_bound; [discriminate|].
  rewrite <- count_lines_of, pairs_chunks. apply retained_count.
Qed.

(** C8. [format] is total, deterministic and pure: on every input it
    returns normally; [formatHeaders] reads only the input area, leaves
    it as it was, and run again on its own result gives that result. *)
Theorem format_total_deterministic_pure :
  (forall raw : jsstring, exists out, format raw = Normal out) /\
  (forall inp old1 old2 : jsstring,
      formatHeaders (mkDocument inp old1) =
      formatHeaders (mkDocument inp old2)) /\
  (forall doc : Document,
      exists out,
        formatHeaders doc = Normal (mkDocument (inputHeaders doc) out) /\
        formatHeaders (mkDocument (inputHeaders doc) out) =
        Normal (mkDocument (inputHeaders doc) out)).
Proof.
  split; [exact format_total|split].
  - reflexivity.
  - intros doc. destruct (format_total (inputHeaders doc)) as [out E].
    exists out. unfold formatHeaders. cbn [inputHeaders].
    rewrite E. split; reflexivity.
Qed.

Lemma no_edge_ws_no_newline (s : jsstring) :
  no_edge_ws s = true -> ends_with_newline s = false.
Proof.
  destruct s as [|c t]; [reflexivity|]. intros H.
  destruct (no_edge_ws_elim (c :: t)) as [_ [_ [u [d [_ [E [_ Hd]]]]]]];
    [discriminate|assumption|].
  unfold ends_with_newline. rewrite E, rev_unit.
  destruct (N.eqb_spec d LF) as [->|]; [|reflexivity].
  now rewrite is_ws_LF in Hd.
Qed.

(** C2, as amended. A whitespace-only line with text somewhere before it
    and somewhere after it is kept by the filter as it is, untrimmed, at
    its own position in the walked lines; the pairing runs over the
    walked lines with it in place, and it is trimmed only there: the pair
    it falls in is not retained. *)
Theorem inner_whitespace_line_kept (a w b : jsstring) :
  trim a <> [] -> trim b <> [] ->
  w <> [] -> all_ws w = true -> ~ In LF w ->
  lines_of (a ++ LF :: w ++ LF :: b) =
  filter Boolean (split LF (trimStart a)) ++
  w :: filter Boolean (split LF (trimEnd b)) /\
  format (a ++ LF :: w ++ LF :: b) =
  Normal
    (join LF
       (map render
          (filter retained
             (pairs
                (filter Boolean (split LF (trimStart a)) ++
                 w :: filter Boolean (split LF (trimEnd b))))))) /\
  (forall x : jsstring, retained (w, x) = false /\ retained (x, w) = false).
Proof.
  intros Ha Hb Hw Hws Hn.
  pose proof (lines_of_inner_line a w b Ha Hb Hw Hn) as E.
  split; [exact E|]. split; [now rewrite format_eq, E|].
  intros x. unfold retained, trim. cbn [fst snd].
  rewrite (trimStart_all_ws w Hws). cbn [trimEnd Boolean ToBoolean].
  now rewrite andb_false_r.
Qed.

Lemma inner_whitespace_line_kept_witness :
  lines_of (str "A" ++ LF :: str " " ++ LF :: str "B" ++ LF :: str "C") =
  [str "A"; str " "; str "B"; str "C"] /\
  format (str "A" ++ LF :: str " " ++ LF :: str "B" ++ LF :: str "C") =
  Normal (str "B: C") /\
  (forall x : jsstring,
      retained (str " ", x) = false /\ retained (x, str " ") = false).
Proof.
  apply (inner_whitespace_line_kept
           (str "A") (str " ") (str "B" ++ LF :: str "C")).
  - discriminate.
  - discriminate.
  - discriminate.
  - reflexivity.
  - unfold LF. simpl. intuition discriminate.
Defined.

(** C2, as stated, fails: the whitespace-only first line of " \nA\nB" is
    a non-empty line of the input, yet it is not among the walked lines,
    and "A" pairs with "B". *)
Lemma leading_whitespace_line_not_kept :
  In (str " ") (split LF (str " " ++ LF :: str "A" ++ LF :: str "B")) /\
  str " " <> [] /\
  all_ws (str " ") = true /\
  lines_of (str " " ++ LF :: str "A" ++ LF :: str "B") =
  [str "A"; str "B"] /\
  ~ In (str " ") (lines_of (str " " ++ LF :: str "A" ++ LF :: str "B")) /\
  format (str " " ++ LF :: str "A" ++ LF :: str "B") = Normal (str "A: B").
Proof.
  repeat split.
  - simpl. now left.
  - discriminate.
  - simpl. intuition discriminate.
Qed.

(** C9. The whole input is trimmed before it is split: stripped units,
    newlines among them, before and after the text change neither the
    walked lines nor the result, so leading and trailing blank lines
    take no part; on " \nA\nB" the result is "A: B". *)
Theorem input_trimmed_before_split :
  (forall pre raw post : jsstring,
      all_ws pre = true -> all_ws post = true ->
      lines_of (pre ++ raw ++ post) = lines_of raw /\
      format (pre ++ raw ++ post) = format raw) /\
  (forall raw : jsstring,
      lines_of raw = filter Boolean (split LF (trim raw)) /\
      format (trim raw) = format raw) /\
  format (str " " ++ LF :: str "A" ++ LF :: str "B") = Normal (str "A: B").
Proof.
  split; [|split].
  - intros pre raw post Hpre Hpost.
    pose proof (lines_of_app_ws pre raw post Hpre Hpost) as E.
    split; [exact E|]. now rewrite !format_eq, E.
  - intros raw. split; [reflexivity|].
    destruct (trim_split raw) as [pre [post [E [H1 H2]]]].
    rewrite !format_eq. rewrite E at 2.
    now rewrite (lines_of_app_ws pre (trim raw) post H1 H2).
  - reflexivity.
Qed.

Lemma input_trimmed_before_split_witness :
  lines_of ((str " " ++ [LF]) ++ (str "A" ++ LF :: str "B") ++ [LF; LF]) =
  lines_of (str "A" ++ LF :: str "B") /\
  format ((str " " ++ [LF]) ++ (str "A" ++ LF :: str "B") ++ [LF; LF]) =
  format (str "A" ++ LF :: str "B").
Proof.
  apply (proj1 input_trimmed_before_split); reflexivity.
Defined.

(** C10. Every line of the result is "name: value" with name and value
    non-empty and free of stripped units at both ends; so no line of the
    result is blank and the result does not end with a newline. *)
Theorem output_lines_well_formed (raw : jsstring) :
  exists (out : jsstring) (ps : list (jsstring * jsstring)),
    format raw = Normal out /\
    text_lines out = map (fun p => fst p ++ str ": " ++ snd p) ps /\
    Forall (fun p => fst p <> [] /\ snd p <> [] /\
                     no_edge_ws (fst p) = true /\
                     no_edge_ws (snd p) = true) ps /\
    Forall (fun l => blank l = false) (text_lines out) /\
    no_edge_ws out = true /\
    ends_with_newline out = false.
Proof.
  set (qs := filter retained (pairs (lines_of raw))).
  assert (F : Forall (fun q => retained q = true) qs)
    by apply retained_filter.
  assert (R : Forall (fun r => r <> [] /\ no_edge_ws r = true)
                (map render qs)).
  { apply Forall_map. eapply Forall_impl; [|exact F].
    intros q Hq. now apply render_retained. }
  assert (C : no_edge_ws (join LF (map render qs)) = true).
  { destruct qs as [|q qs']; [reflexivity|].
    now apply join_no_edge_ws. }
  exists (join LF (map render qs)),
         (map (fun p => (trim (fst p), trim (snd p))) qs).
  split; [apply format_eq|].
  rewrite (text_lines_output raw : text_lines (join LF (map render qs)) = _).
  fold qs.
  split; [now rewrite map_map|].
  split; [|split; [|split]].
  - apply Forall_map. eapply Forall_impl; [|exact F].
    intros q Hq. cbn [fst snd]. unfold retained in Hq.
    apply andb_prop in Hq as [Hk Hv]. apply Boolean_true in Hk, Hv.
    auto using trim_no_edge_ws.
  - eapply Forall_impl; [|exact R]. intros r [Hr Cr].
    unfold blank. rewrite (trim_fixed r Cr).
    apply Boolean_true in Hr. now rewrite Hr.
  - exact C.
  - now apply no_edge_ws_no_newline.
Qed.

End Properties.

(** ** Further properties of the script *)

Section WellFormedInput.

Lemma trim_idem (s : jsstring) : trim (trim s) = trim s.
Proof. apply trim_fixed, trim_no_edge_ws. Qed.

Lemma trimStart_In (s : jsstring) (c : code_unit) :
  In c (trimStart s) -> In c s.
Proof.
  destruct (trimStart_split s) as [pre [E _]]. intros H.
  rewrite E. apply in_or_app. now right.
Qed.

Lemma trimEnd_In (s : jsstring) (c : code_unit) :
  In c (trimEnd s) -> In c s.
Proof.
  destruct (trimEnd_split s) as [post [E _]]. intros H.
  rewrite E. apply in_or_app. now left.
Qed.

Lemma trim_trimStart (s : jsstring) : trim (trimStart s) = trim s.
Proof.
  unfold trim. f_equal. destruct (trimStart s) as [|c t] eqn:E.
  - reflexivity.
  - apply trimStart_fixed. now apply (trimStart_head s c t).
Qed.

Lemma trimEnd_idem (s : jsstring) : trimEnd (trimEnd s) = trimEnd s.
Proof.
  destruct (trimEnd s) as [|c t] eqn:E; [reflexivity|].
  destruct (trimEnd_last s) as [u [d [E' Hd]]]; [congruence|].
  rewrite <- E, E'. now apply trimEnd_fixed.
Qed.

Lemma trim_trimEnd (s : jsstring) : trim (trimEnd s) = trim s.
Proof.
  unfold trim. rewrite <- !trimStart_trimEnd. f_equal. apply trimEnd_idem.
Qed.

Lemma join_snoc (ls : list jsstring) (l : jsstring) :
  join LF (ls ++ [l]) = concat (map (fun r => r ++ [LF]) ls) ++ l.
Proof.
  induction ls as [|a ls IH]; [reflexivity|].
  change ((a :: ls) ++ [l]) with (a :: (ls ++ [l])).
  rewrite join_cons by (destruct ls; discriminate).
  rewrite IH. cbn [map concat]. now rewrite <- !app_assoc.
Qed.

(** Pairing and rendering look at the lines through [trim] only. *)
Lemma chunks_map_trim (l : list jsstring) :
  map render (filter retained (chunks (map trim l))) =
  map render (filter retained (chunks l)).
Proof.
  induction l as [| a | a b rest IH] using list_ind2; try reflexivity.
  cbn [map chunks filter].
  assert (R : retained (trim a, trim b) = retained (a, b)).
  { unfold retained. cbn [fst snd]. now rewrite !trim_idem. }
  assert (E : render (trim a, trim b) = render (a, b)).
  { unfold render. cbn [fst snd]. now rewrite !trim_idem. }
  rewrite R. destruct (retained (a, b)); cbn [map]; now rewrite ?E, IH.
Qed.

Lemma filter_retained_nonblank (l : list jsstring) :
  Forall (fun x => trim x <> []) l -> filter retained (chunks l) = chunks l.
Proof.
  induction l as [| a | a b rest IH] using list_ind2; try reflexivity.
  intros H. inversion H as [|? ? Ha H']; subst.
  inversion H' as [|? ? Hb H'']; subst.
  cbn [chunks filter]. unfold retained at 1. cbn [fst snd].
  apply Boolean_true in Ha, Hb. rewrite Ha, Hb. cbn [andb].
  now rewrite IH.
Qed.

Lemma trim_nonempty (s : jsstring) : trim s <> [] -> s <> [].
Proof. intros H E. subst s. now apply H. Qed.

(** With no blank line in the text, the walked lines are the lines of
    the text, up to what [trim] strips. *)
Lemma lines_of_join (ls : list jsstring) :
  Forall (fun l => ~ In LF l /\ trim l <> []) ls ->
  map trim (lines_of (join LF ls)) = map trim ls.
Proof.
  intros H. destruct ls as [|l1 rest]; [reflexivity|].
  inversion H as [|? ? [N1 T1] Hrest]; subst.
  destruct rest as [|l2 rest'].
  - cbn [join]. unfold lines_of.
    rewrite split_no_sep by (intros I; now apply trim_In in I).
    cbn [filter]. apply Boolean_true in T1. rewrite T1.
    cbn [map]. now rewrite trim_idem.
  - destruct (@exists_last _ (l2 :: rest')) as [mid [ln E]]; [discriminate|].
    rewrite E in *. clear E l2 rest'.
    apply Forall_app in Hrest as [Hmid Hln].
    inversion Hln as [|? ? [Nn Tn] _]; subst.
    set (M := concat (map (fun r => r ++ [LF]) mid)).
    assert (J : forall x y, join LF (x :: mid ++ [y]) = x ++ (LF :: M) ++ y).
    { intros x y. rewrite join_cons by (destruct mid; discriminate).
      now rewrite join_snoc. }
    unfold lines_of. rewrite J, (trim_app_keep l1 (LF :: M) ln T1 Tn).
    rewrite <- J. rewrite split_join.
    + assert (F : forall xs, Forall (fun l => ~ In LF l /\ trim l <> []) xs ->
                        filter Boolean xs = xs).
      { induction xs as [|x xs IH]; [reflexivity|]. intros Hx.
        inversion Hx as [|? ? [_ Tx] Hxs]; subst. cbn [filter].
        apply trim_nonempty, Boolean_true in Tx. rewrite Tx.
        now rewrite IH. }
      cbn [filter].
      assert (B1 : Boolean (trimStart l1) = true)
        by now apply Boolean_true, trim_nonempty_start.
      assert (Bn : Boolean (trimEnd ln) = true)
        by now apply Boolean_true, trim_nonempty_end.
      rewrite B1, filter_app, (F mid Hmid). cbn [filter]. rewrite Bn.
      cbn [map]. rewrite !map_app. cbn [map].
      now rewrite trim_trimStart, trim_trimEnd.
    + discriminate.
    + constructor; [intros I; now apply trimStart_In in I|].
      apply Forall_app. split.
      * eapply Forall_impl; [|exact Hmid]. now intros x [Nx _].
      * constructor; [|constructor]. intros I. now apply trimEnd_In in I.
Qed.

(** A text without blank lines is formatted to its consecutive pairs. *)
Lemma format_nonblank_lines (ls : list jsstring) :
  Forall (fun l => ~ In LF l /\ trim l <> []) ls ->
  format (join LF ls) = Normal (join LF (map render (chunks ls))).
Proof.
  intros H. rewrite format_eq, pairs_chunks. do 2 f_equal.
  rewrite <- chunks_map_trim, (lines_of_join ls H), chunks_map_trim.
  rewrite filter_retained_nonblank; [reflexivity|].
  eapply Forall_impl; [|exact H]. now intros x [_ T].
Qed.

Lemma text_lines_join (rs : list jsstring) :
  Forall (fun r => r <> [] /\ ~ In LF r) rs -> text_lines (join LF rs) = rs.
Proof.
  intros H. destruct rs as [|r rs']; [reflexivity|].
  inversion H as [|? ? [Hr _] _]; subst.
  unfold text_lines. destruct (join LF (r :: rs')) as [|c t] eqn:J.
  - destruct r as [|c r]; [congruence|]. destruct rs'; discriminate J.
  - rewrite <- J. apply split_join; [discriminate|].
    eapply Forall_impl; [|exact H]. now intros x [_ N].
Qed.

Lemma length_chunks (l : list jsstring) : length (chunks l) = length l / 2.
Proof. now rewrite <- pairs_chunks; unfold pairs; rewrite length_map, length_seq. Qed.

Lemma render_chunks_ok (ls : list jsstring) :
  Forall (fun l => ~ In LF l /\ trim l <> []) ls ->
  Forall (fun r => r <> [] /\ ~ In LF r) (map render (chunks ls)).
Proof.
  intros H. apply Forall_map, Forall_forall. intros p Hp.
  apply chunks_In in Hp as [Hk Hv].
  rewrite Forall_forall in H.
  destruct (H _ Hk) as [Nk Tk]. destruct (H _ Hv) as [Nv Tv]. split.
  - apply render_retained. unfold retained.
    apply Boolean_true in Tk, Tv. now rewrite Tk, Tv.
  - now apply render_no_LF.
Qed.


End WellFormedInput.

Section Provenance.

Lemma In_join (rs : list jsstring) (c : code_unit) :
  In c (join LF rs) -> c = LF \/ exists r, In r rs /\ In c r.
Proof.
  induction rs as [|r rs IH]; [contradiction|].
  destruct rs as [|r' rs'].
  - cbn [join]. intros H. right. exists r. split; [now left|assumption].
  - rewrite join_cons by discriminate. intros H.
    apply in_app_or in H as [H|[H|H]].
    + right. exists r. split; [now left|assumption].
    + now left.
    + destruct (IH H) as [E|[x [Hx Hc]]]; [now left|].
      right. exists x. split; [now right|assumption].
Qed.

Lemma In_split (s l : jsstring) (c : code_unit) :
  In l (split LF s) -> In c l -> In c s.
Proof.
  revert l. induction s as [|d s IH]; intros l Hl Hc.
  - destruct Hl as [<-|[]]. contradiction.
  - rewrite split_cons in Hl. destruct (d =? LF)%N.
    + destruct Hl as [<-|Hl]; [contradiction|]. right. eauto.
    + destruct (split LF s) as [|l0 ls0] eqn:E;
        [now apply split_not_nil in E|].
      cbn [prepend app] in Hl. destruct Hl as [<-|Hl].
      * destruct Hc as [<-|Hc]; [now left|]. right.
        apply (IH l0); [now left|assumption].
      * right. apply (IH l); [now right|assumption].
Qed.

Lemma length_join (rs : list jsstring) :
  rs <> [] ->
  length (join LF rs) + 1 = list_sum (map (@length code_unit) rs) + length rs.
Proof.
  induction rs as [|r rs IH]; [congruence|]. intros _.
  destruct rs as [|r' rs'].
  - cbn. lia.
  - rewrite join_cons by discriminate.
    rewrite length_app. unfold list_sum in *.
    cbn [length map fold_right] in *.
    specialize (IH ltac:(discriminate)). lia.
Qed.

Lemma length_split (s : jsstring) :
  list_sum (map (@length code_unit) (split LF s)) + length (split LF s) =
  length s + 1.
Proof.
  rewrite <- (join_split LF s) at 3.
  symmetry. apply length_join, split_not_nil.
Qed.

Lemma length_trim_le (s : jsstring) : length (trim s) <= length s.
Proof.
  destruct (trim_split s) as [pre [post [E _]]].
  rewrite E at 2. rewrite !length_app. lia.
Qed.

Lemma sum_filter_Boolean (ls : list jsstring) :
  list_sum (map (@length code_unit) (filter Boolean ls)) =
  list_sum (map (@length code_unit) ls) /\
  length (filter Boolean ls) <= length ls.
Proof.
  induction ls as [|l ls [IH1 IH2]]; [split; reflexivity|].
  cbn [filter]. unfold list_sum in *.
  destruct l as [|c l]; cbn [Boolean ToBoolean map fold_right length];
    split; lia.
Qed.

(** Each retained pair costs two units more than its two lines. *)
Lemma sum_render (l : list jsstring) :
  list_sum (map (@length code_unit)
              (map render (filter retained (chunks l)))) <=
  list_sum (map (@length code_unit) l) +
  2 * length (filter retained (chunks l)) /\
  2 * length (filter retained (chunks l)) <= length l.
Proof.
  induction l as [| a | a b rest [IH1 IH2]] using list_ind2;
    [cbn; lia..|].
  cbn [chunks filter]. unfold list_sum in *. destruct (retained (a, b)).
  - cbn [map fold_right length]. unfold render at 1. cbn [fst snd].
    rewrite !length_app.
    pose proof (length_trim_le a). pose proof (length_trim_le b).
    change (length (str ": ")) with 2. lia.
  - cbn [map fold_right length]. lia.
Qed.

End Provenance.

Section MoreProperties.

(** X1. When no line of the text is blank, the text is formatted to its
    consecutive pairs of lines, each as "name: value" with name and value
    trimmed, and the result has half as many lines, rounded down. *)
Theorem well_formed_input_formatted (ls : list jsstring) :
  Forall (fun l => ~ In LF l /\ trim l <> []) ls ->
  format (join LF ls) = Normal (join LF (map render (pairs ls))) /\
  output_lines (join LF (map render (pairs ls))) = length ls / 2.
Proof.
  intros H. rewrite pairs_chunks. split.
  - now apply format_nonblank_lines.
  - unfold output_lines.
    rewrite text_lines_join by now apply render_chunks_ok.
    now rewrite length_map, length_chunks.
Qed.

Lemma well_formed_input_formatted_witness :
  format
    (join LF [str "Header-Name-1"; str " Header-Value-1 ";
              str "Header-Name-2"; str "Header-Value-2"]) =
  Normal
    (str "Header-Name-1: Header-Value-1" ++
     LF :: str "Header-Name-2: Header-Value-2") /\
  output_lines
    (str "Header-Name-1: Header-Value-1" ++
     LF :: str "Header-Name-2: Header-Value-2") = 2.
Proof.
  apply (well_formed_input_formatted
           [str "Header-Name-1"; str " Header-Value-1 ";
            str "Header-Name-2"; str "Header-Value-2"]).
  repeat constructor; try discriminate;
    unfold LF; simpl; intuition discriminate.
Defined.

(** X2. A text with fewer than two lines that do not trim to empty is
    formatted to the empty text; so is a text of stripped units only, and
    a text on one line. *)
Theorem too_few_lines_give_nothing :
  (forall raw : jsstring,
      count_nonblank (split LF raw) < 2 -> format raw = Normal []) /\
  (forall raw : jsstring, all_ws raw = true -> format raw = Normal []) /\
  (forall raw : jsstring, ~ In LF raw -> format raw = Normal []).
Proof.
  assert (G : forall raw : jsstring,
             count_nonblank (split LF raw) < 2 -> format raw = Normal []).
  { intros raw H. rewrite format_eq, pairs_chunks.
    pose proof (retained_count (lines_of raw)) as B.
    rewrite count_lines_of in B.
    destruct (filter retained (chunks (lines_of raw))) as [|p ps];
      [reflexivity|]. cbn [length] in B. lia. }
  split; [exact G|split].
  - intros raw H. apply G.
    rewrite <- (prepend_nil _ (split_not_nil LF raw)).
    rewrite (count_split_ws raw H []). cbn. lia.
  - intros raw H. apply G. rewrite split_no_sep by assumption.
    rewrite count_nonblank_cons. cbn. destruct (blank raw); lia.
Qed.

Lemma too_few_lines_give_nothing_witness :
  format (str "OnlyKey" ++ LF :: str "   " ++ [LF]) = Normal [] /\
  format (str "  " ++ LF :: str " ") = Normal [] /\
  format (str "Only: Key") = Normal [].
Proof.
  destruct too_few_lines_give_nothing as [H1 [H2 H3]].
  split; [|split].
  - apply H1. cbn. lia.
  - apply H2. reflexivity.
  - apply H3. unfold LF. simpl. intuition discriminate.
Defined.

(** X3. Every code unit of the result is a code unit of the input, or one
    of the inserted ":" and " ", or the "\n" between two lines: [format]
    invents nothing else. *)
Theorem output_units_from_input (raw : jsstring) :
  exists out,
    format raw = Normal out /\
    Forall (fun c => In c raw \/ In c (str ": ") \/ c = LF) out.
Proof.
  eexists. split; [apply format_eq|].
  apply Forall_forall. intros c Hc.
  apply In_join in Hc as [->|[r [Hr Hc]]]; [now right; right|].
  apply in_map_iff in Hr as [p [<- Hp]].
  apply filter_In in Hp as [Hp _]. rewrite pairs_chunks in Hp.
  apply chunks_In in Hp as [Hk Hv].
  assert (L : forall l, In l (lines_of raw) -> In c (trim l) -> In c raw).
  { intros l Hl Hl'. apply filter_In in Hl as [Hl _].
    apply trim_In in Hl'. apply (trim_In raw), (In_split _ l); assumption. }
  unfold render in Hc. apply in_app_or in Hc as [Hc|Hc]; [left; eauto|].
  apply in_app_or in Hc as [Hc|Hc]; [now right; left|left; eauto].
Qed.

(** X4. The result is at most one code unit per line longer than the
    input: a pair gains ": " and loses a "\n". *)
Theorem output_length_bound (raw : jsstring) :
  exists out,
    format raw = Normal out /\
    length out <= length raw + output_lines out.
Proof.
  eexists. split; [apply format_eq|].
  unfold output_lines. rewrite text_lines_output, length_map, pairs_chunks.
  set (l := lines_of raw).
  destruct (sum_render l) as [S1 S2].
  destruct (sum_filter_Boolean (split LF (trim raw))) as [F1 F2].
  fold (lines_of raw) in F1, F2. fold l in F1, F2.
  pose proof (length_split (trim raw)) as T.
  pose proof (length_trim_le raw) as R.
  destruct (filter retained (chunks l)) as [|p ps] eqn:E; [cbn; lia|].
  pose proof (length_join (map render (p :: ps)) ltac:(discriminate)) as J.
  rewrite length_map in J. lia.
Qed.


Lemma chunks_app_even (l1 l2 : list jsstring) :
  Nat.even (length l1) = true -> chunks (l1 ++ l2) = chunks l1 ++ chunks l2.
Proof.
  induction l1 as [| a | a b rest IH] using list_ind2.
  - reflexivity.
  - discriminate.
  - intros H. change (Nat.even (length rest) = true) in H.
    cbn [app chunks]. now rewrite IH.
Qed.

(** X6. Formatting goes block by block: when no line is blank and the
    first block has an even number of lines, the lines of the result for
    two blocks put one after the other are the lines for the first block
    followed by the lines for the second. *)
Theorem format_of_two_blocks (l1 l2 : list jsstring) :
  Forall (fun l => ~ In LF l /\ trim l <> []) l1 ->
  Forall (fun l => ~ In LF l /\ trim l <> []) l2 ->
  Nat.even (length l1) = true ->
  exists o1 o2 o,
    format (join LF l1) = Normal o1 /\
    format (join LF l2) = Normal o2 /\
    format (join LF (l1 ++ l2)) = Normal o /\
    text_lines o = text_lines o1 ++ text_lines o2.
Proof.
  intros H1 H2 E.
  assert (H : Forall (fun l => ~ In LF l /\ trim l <> []) (l1 ++ l2))
    by (apply Forall_app; now split).
  exists (join LF (map render (chunks l1))),
         (join LF (map render (chunks l2))),
         (join LF (map render (chunks (l1 ++ l2)))).
  repeat split; try now apply format_nonblank_lines.
  rewrite !text_lines_join by now apply render_chunks_ok.
  now rewrite chunks_app_even, map_app.
Qed.

Lemma format_of_two_blocks_witness :
  exists o1 o2 o,
    format (join LF [str "A"; str "B"]) = Normal o1 /\
    format (join LF [str "C"; str "D"; str "E"]) = Normal o2 /\
    format (join LF ([str "A"; str "B"] ++ [str "C"; str "D"; str "E"])) =
    Normal o /\
    text_lines o = text_lines o1 ++ text_lines o2.
Proof.
  apply (format_of_two_blocks [str "A"; str "B"] [str "C"; str "D"; str "E"]).
  - repeat constructor; try discriminate;
      unfold LF; simpl; intuition discriminate.
  - repeat constructor; try discriminate;
      unfold LF; simpl; intuition discriminate.
  - reflexivity.
Defined.



End MoreProperties.
